(** * Offline cache manager (sw.js): model and verified properties

    The service worker of kr-close-report registers three event handlers
    (install, activate, fetch) that drive the browser's Cache Storage.  The
    handlers are embedded here as functions over an explicit world: the
    cache storage, the queue of detached promise chains, and the log of host
    calls the worker has made.

    The host (browser) is the environment of the program.  It is modelled as
    the key-value store the handlers program against: buckets are looked up
    by name, entries by request URL (matching on request headers is not
    modelled).  Three host operations can fail: a network fetch may reject,
    a bucket deletion may reject, and [cache.put] refuses some pairs (a
    response of status 206, and what the [put_fails] oracle stands for);
    the first two are oracles of the [Host] record too.  [cache.addAll]
    rejects when one of its fetches fails.  Every other host call settles
    successfully. *)

From stdpp Require Import gmap strings list.

Open Scope string_scope.
Open Scope list_scope.

(** ** Data model *)

(** A request as the worker sees it: its method and its URL.  URLs are kept
    relative to the worker's origin, so that the string ["/"] handed to
    [caches.match] and the request of the root document have the same key. *)
Record Request := { method : string; url : string }.

(** Which object a response is: the one a fetch produced, or a clone of
    another response.  A response and its clone are two objects with the
    same status and body.  A bucket holds the object that was put, and a
    lookup answers with it. *)
Inductive Origin :=
  | Fetched
  | CloneOf (o : Origin).

#[global] Instance Origin_eq_dec : EqDecision Origin.
Proof. solve_decision. Defined.

(** A response object: the status code, the body, and which object it is. *)
Record Response := { status : nat; body : string; origin : Origin }.

#[global] Instance Request_eq_dec : EqDecision Request.
Proof. solve_decision. Defined.

#[global] Instance Response_eq_dec : EqDecision Response.
Proof. solve_decision. Defined.

(** [res.clone()]: a second response object with the same status and body. *)
Definition clone (res : Response) : Response :=
  {| status := status res; body := body res; origin := CloneOf (origin res) |}.

(** The request the host builds from a URL string, as [caches.match("/")]
    and [cache.addAll([...])] do: a GET of that URL. *)
Definition request_of (u : string) : Request :=
  {| method := "GET"; url := u |}.

(** [response.ok]: the status is in the range 200-299. *)
Definition is_ok (res : Response) : bool :=
  bool_decide (200 ≤ status res ≤ 299)%nat.

(** Reasons a promise rejects with. *)
Inductive Error := TypeError | NetworkError | StorageError.

(** A settled promise. *)
Inductive Settled (A : Type) :=
  | Fulfilled (a : A)
  | Rejected (e : Error).
Arguments Fulfilled {A} a.
Arguments Rejected {A} e.

Definition is_fulfilled {A} (s : Settled A) : bool :=
  match s with Fulfilled _ => true | Rejected _ => false end.

(** A bucket maps request URLs to stored responses; the cache storage is the
    list of named buckets in creation order, which is the order
    [caches.keys()] lists them in and [caches.match] searches them in. *)
Abbreviation Cache := (gmap string Response).
Abbreviation CacheStorage := (list (string * gmap string Response)).

(** Host calls, logged in the order the model performs them: the calls of a
    promise chain as its steps settle, and the trailing synchronous call of a
    handler ([skipWaiting], [clients.claim]) after the chain, as in the text
    of the source. *)
Inductive Call :=
  | HostFetch (req : Request)
  | CachesOpen (name : string)
  | CachesKeys
  | CachesDelete (name : string)
  | CachesMatch (req : Request)
  | CacheAddAll (name : string) (urls : list string)
  | CachePut (name : string) (req : Request) (res : Response)
  | SkipWaiting
  | ClientsClaim.

#[global] Instance Call_eq_dec : EqDecision Call.
Proof. solve_decision. Defined.

(** A promise chain that was started and not awaited.  The only one in the
    source is the store of line 22:
    [caches.open(CACHE_NAME).then((cache) => cache.put(event.request, copy))]. *)
Inductive Task :=
  | PutTask (req : Request) (copy : Response).

Record World := {
  caches : CacheStorage;
  pending : list Task;
  calls : list Call
}.

(** The environment: what the network answers to a request, which bucket
    deletions the host fails, and which pairs [cache.put] refuses for a
    reason the requests and responses of the model do not carry (a
    [Vary: *] header, a URL scheme other than http or https). *)
Record Host := {
  network : Request → Settled Response;
  delete_fails : string → bool;
  put_fails : Request → Response → bool
}.

(** ** The constants of the source *)

Definition CACHE_NAME : string := "kr-close-report-v1".

Definition CORE_ASSETS : list string :=
  ["/"; "/index.html"; "/manifest.webmanifest"; "/icon-192.png"; "/icon-512.png"].

(** ** Cache storage operations *)

Definition names (cs : CacheStorage) : list string := cs.*1.

Fixpoint get_bucket (name : string) (cs : CacheStorage) : option Cache :=
  match cs with
  | [] => None
  | (n, b) :: cs' => if decide (n = name) then Some b else get_bucket name cs'
  end.

(** [caches.open(name)]: the bucket is created, empty and last in order,
    when it does not exist. *)
Definition open_bucket (name : string) (cs : CacheStorage) : CacheStorage :=
  match get_bucket name cs with
  | Some _ => cs
  | None => cs ++ [(name, ∅)]
  end.

Definition remove_bucket (name : string) (cs : CacheStorage) : CacheStorage :=
  filter (λ nb, nb.1 ≠ name) cs.

Fixpoint update_bucket (name : string) (f : Cache → Cache) (cs : CacheStorage)
  : CacheStorage :=
  match cs with
  | [] => []
  | (n, b) :: cs' =>
      if decide (n = name) then (n, f b) :: cs'
      else (n, b) :: update_bucket name f cs'
  end.

(** [cache.put]: the entry of that URL is replaced or added. *)
Definition put_entry (name u : string) (res : Response) (cs : CacheStorage)
  : CacheStorage :=
  update_bucket name (λ b, <[u := res]> b) cs.

Definition put_entries (name : string) (kvs : list (string * Response))
  (cs : CacheStorage) : CacheStorage :=
  foldl (λ acc kv, put_entry name kv.1 kv.2 acc) cs kvs.

(** [caches.match]: the first bucket, in creation order, that holds an entry
    for the URL answers. *)
Fixpoint lookup_storage (u : string) (cs : CacheStorage) : option Response :=
  match cs with
  | [] => None
  | (_, b) :: cs' =>
      match b !! u with
      | Some r => Some r
      | None => lookup_storage u cs'
      end
  end.

(** The entry of a URL in a named bucket. *)
Definition bucket_entry (name u : string) (cs : CacheStorage) : option Response :=
  get_bucket name cs ≫= λ b, b !! u.

(** ** Promises over the world *)

Definition Async (A : Type) : Type := Host → World → Settled A * World.

Definition resolve {A} (a : A) : Async A := λ _ w, (Fulfilled a, w).

(** [p.then(f)] *)
Definition then_ {A B} (p : Async A) (f : A → Async B) : Async B := λ h w,
  match p h w with
  | (Fulfilled a, w') => f a h w'
  | (Rejected e, w') => (Rejected e, w')
  end.

(** [p.catch(f)] *)
Definition catch_ {A} (p : Async A) (f : Error → Async A) : Async A := λ h w,
  match p h w with
  | (Fulfilled a, w') => (Fulfilled a, w')
  | (Rejected e, w') => f e h w'
  end.

(** [Promise.all(ps)]: the promises of [ps] were all started when the array
    was built, so each one takes effect whatever the others do; the result
    rejects when one of them rejects. *)
Fixpoint promise_all {A} (ps : list (Async A)) (h : Host) (w : World)
  : Settled (list A) * World :=
  match ps with
  | [] => (Fulfilled [], w)
  | p :: ps' =>
      let '(r, w1) := p h w in
      let '(rs, w2) := promise_all ps' h w1 in
      (match r, rs with
       | Fulfilled a, Fulfilled l => Fulfilled (a :: l)
       | Rejected e, _ => Rejected e
       | Fulfilled _, Rejected e => Rejected e
       end, w2)
  end.

Definition log (c : Call) (w : World) : World :=
  {| caches := caches w; pending := pending w; calls := calls w ++ [c] |}.

Definition set_caches (cs : CacheStorage) (w : World) : World :=
  {| caches := cs; pending := pending w; calls := calls w |}.

Definition spawn (t : Task) (w : World) : World :=
  {| caches := caches w; pending := pending w ++ [t]; calls := calls w |}.

(** ** Host calls *)

(** [fetch(req)] *)
Definition fetch (req : Request) : Async Response := λ h w,
  (network h req, log (HostFetch req) w).

(** [caches.open(name)]; the handle of the bucket is its name. *)
Definition caches_open (name : string) : Async string := λ _ w,
  (Fulfilled name, log (CachesOpen name) (set_caches (open_bucket name (caches w)) w)).

(** [caches.keys()] *)
Definition caches_keys : Async (list string) := λ _ w,
  (Fulfilled (names (caches w)), log CachesKeys w).

(** [caches.delete(name)]: resolves with whether the bucket existed. *)
Definition caches_delete (name : string) : Async bool := λ h w,
  if delete_fails h name then (Rejected StorageError, log (CachesDelete name) w)
  else (Fulfilled (bool_decide (is_Some (get_bucket name (caches w)))),
        log (CachesDelete name) (set_caches (remove_bucket name (caches w)) w)).

(** [caches.match(req)]: only GET requests have entries. *)
Definition caches_match (req : Request) : Async (option Response) := λ _ w,
  (Fulfilled (if decide (method req = "GET") then lookup_storage (url req) (caches w)
              else None),
   log (CachesMatch req) w).

(** The pairs [cache.put] rejects with a [TypeError]: a request that is not
    a GET, a response of status 206 (partial content), and what the host
    refuses otherwise. *)
Definition put_refused (h : Host) (req : Request) (res : Response) : bool :=
  bool_decide (method req ≠ "GET")
  || bool_decide (status res = 206%nat)
  || put_fails h req res.

(** [cache.put(req, res)]: the entry is stored unless the pair is refused. *)
Definition cache_put (cache : string) (req : Request) (res : Response)
  : Async unit := λ h w,
  if put_refused h req res
  then (Rejected TypeError, log (CachePut cache req res) w)
  else (Fulfilled (),
        log (CachePut cache req res)
          (set_caches (put_entry cache (url req) res (caches w)) w)).

(** What [cache.addAll] obtains for one URL: the response, when the fetch
    fulfils with an ok status. *)
Definition fetch_asset (h : Host) (u : string) : option Response :=
  match network h (request_of u) with
  | Fulfilled r => if is_ok r then Some r else None
  | Rejected _ => None
  end.

(** [cache.addAll(urls)]: every URL is fetched; the entries are stored when
    all of them were obtained, and none is stored otherwise. *)
Definition cache_addAll (cache : string) (urls : list string) : Async unit := λ h w,
  match mapM (fetch_asset h) urls with
  | Some rs =>
      (Fulfilled (),
       log (CacheAddAll cache urls)
         (set_caches (put_entries cache (zip urls rs) (caches w)) w))
  | None => (Rejected TypeError, log (CacheAddAll cache urls) w)
  end.

(** Starting a promise chain without awaiting it. *)
Definition detach (t : Task) : Async unit := λ _ w, (Fulfilled (), spawn t w).

Definition skipWaiting (w : World) : World := log SkipWaiting w.
Definition clients_claim (w : World) : World := log ClientsClaim w.

(** ** The handlers of sw.js *)

(** *** install (lines 4-7)

    The result is how the promise handed to [event.waitUntil] settles. *)
Definition install_promise : Async unit :=
  then_ (caches_open CACHE_NAME) (λ cache, cache_addAll cache CORE_ASSETS).

Definition install_handler : Async unit := λ h w,
  let '(r, w') := install_promise h w in
  (r, skipWaiting w').

(** *** activate (lines 9-14)

    [k !== CACHE_NAME ? caches.delete(k) : null]: an element of the array is
    the outcome of the deletion, or [None] for [null]. *)
Definition delete_if_stale (k : string) : Async (option bool) :=
  if decide (k ≠ CACHE_NAME)
  then then_ (caches_delete k) (λ existed, resolve (Some existed))
  else resolve None.

Definition activate_promise : Async (list (option bool)) :=
  then_ caches_keys (λ keys, promise_all (map delete_if_stale keys)).

Definition activate_handler : Async (list (option bool)) := λ h w,
  let '(r, w') := activate_promise h w in
  (r, clients_claim w').

(** *** fetch (lines 16-27)

    The handler either returns without calling [event.respondWith], or hands
    it a promise; [None] stands for [undefined]. *)
Inductive Intercept :=
  | PassThrough
  | RespondWith (p : Settled (option Response)).

(** [cached || caches.match("/")] *)
Definition or_root (cached : option Response) : Async (option Response) :=
  match cached with
  | Some c => resolve (Some c)
  | None => caches_match (request_of "/")
  end.

(** The promise handed to [event.respondWith].  The store of line 22 is
    started and not awaited: it is queued, and the handler goes on to
    [return res]. *)
Definition respond_promise (req : Request) : Async (option Response) :=
  catch_
    (then_ (fetch req) (λ res,
       let copy := clone res in
       then_ (detach (PutTask req copy)) (λ _, resolve (Some res))))
    (λ _, then_ (caches_match req) or_root).

Definition fetch_handler (req : Request) (h : Host) (w : World)
  : Intercept * World :=
  if decide (method req ≠ "GET") then (PassThrough, w)
  else
    let '(p, w') := respond_promise req h w in
    (RespondWith p, w').

(** ** Detached chains *)

(** The chain of line 22, run to its end; nothing handles its rejection. *)
Definition run_task (t : Task) : Async unit :=
  match t with
  | PutTask req copy =>
      then_ (caches_open CACHE_NAME) (λ cache, cache_put cache req copy)
  end.

Fixpoint run_tasks (ts : list Task) (h : Host) (w : World) : World :=
  match ts with
  | [] => w
  | t :: ts' => run_tasks ts' h (run_task t h w).2
  end.

(** All pending chains settle, oldest first. *)
Definition drain (h : Host) (w : World) : World :=
  run_tasks (pending w) h
    {| caches := caches w; pending := []; calls := calls w |}.

(** ** The host's side of the events *)

(** States of a worker in the host's lifecycle. *)
Inductive WorkerState := Installing | Installed | Activating | Activated | Redundant.

(** The host dispatches install and waits for the promise of [waitUntil]:
    a rejection discards the worker, a fulfilment installs it. *)
Definition install_event (h : Host) (w : World) : WorkerState * World :=
  let '(r, w') := install_handler h w in
  (if is_fulfilled r then Installed else Redundant, w').

(** The host dispatches activate and waits for the promise of [waitUntil] to
    settle; the worker is activated whichever way it settles. *)
Definition activate_event (h : Host) (w : World) : WorkerState * World :=
  let '(_, w') := activate_handler h w in
  (Activated, w').

(** What the page receives for a request: the answer of the network when the
    worker did not intercept, the response of [respondWith] otherwise; a
    promise that rejects or resolves with [undefined] is a network error. *)
Definition page_receives (h : Host) (req : Request) (i : Intercept)
  : Settled Response :=
  match i with
  | PassThrough => network h req
  | RespondWith (Fulfilled (Some r)) => Fulfilled r
  | RespondWith (Fulfilled None) => Rejected NetworkError
  | RespondWith (Rejected _) => Rejected NetworkError
  end.

(** The calls a handler made, given the world before and after it. *)
Definition calls_since (w w' : World) : list Call :=
  drop (length (calls w)) (calls w').

Definition is_match_call (c : Call) : bool :=
  match c with CachesMatch _ => true | _ => false end.

(** Whether the lookup chain of the catch branch was entered. *)
Definition fallback_taken (w w' : World) : bool :=
  existsb is_match_call (calls_since w w').

(** The spec's fallback chain: the first defined value of a list of
    candidates. *)
Fixpoint first_defined {A} (xs : list (option A)) : option A :=
  match xs with
  | [] => None
  | Some a :: _ => Some a
  | None :: xs' => first_defined xs'
  end.

(** The state the cache storage is in once the stale buckets are gone. *)
Definition only_current (cs : CacheStorage) : Prop :=
  ∀ k, k ∈ names cs → k = CACHE_NAME.

(** No bucket other than the current one holds an entry for the URL. *)
Definition only_current_holds (u : string) (cs : CacheStorage) : Prop :=
  Forall (λ nb, nb.1 ≠ CACHE_NAME → nb.2 !! u = None) cs.

(** The request of the root document. *)
Definition root_request : Request := request_of "/".

(** The worlds of the steady phase: the one a completed activation leaves,
    and those reached from it by fetch events and by detached stores
    settling. *)
Inductive steady : World → Prop :=
  | steady_activated h w :
      is_fulfilled (activate_handler h w).1 = true →
      steady (activate_handler h w).2
  | steady_fetch req h w :
      steady w → steady (fetch_handler req h w).2
  | steady_drain h w :
      steady w → steady (drain h w).

(** A bucket survives activation when it is the current one or when the
    host fails its deletion. *)
Definition survives (h : Host) (k : string) : Prop :=
  k = CACHE_NAME ∨ delete_fails h k = true.

#[global] Instance survives_dec h k : Decision (survives h k).
Proof. unfold survives. apply _. Defined.

(** The four paths the specification lists: the root document, the
    manifest, and the icon at two resolutions. *)
Definition listed_core_assets : list string :=
  ["/"; "/manifest.webmanifest"; "/icon-192.png"; "/icon-512.png"].

(** ** Sequences of events *)

(** An event the host delivers to the worker, with the conditions of the
    host at that moment: one of the three events the source listens to, or
    the settling of the detached stores started so far. *)
Inductive Event :=
  | InstallEvent (h : Host)
  | ActivateEvent (h : Host)
  | FetchEvent (h : Host) (req : Request)
  | SettleEvent (h : Host).

Definition deliver (ev : Event) (w : World) : World :=
  match ev with
  | InstallEvent h => (install_handler h w).2
  | ActivateEvent h => (activate_handler h w).2
  | FetchEvent h req => (fetch_handler req h w).2
  | SettleEvent h => drain h w
  end.

Definition deliver_all (evs : list Event) (w : World) : World :=
  foldl (λ acc ev, deliver ev acc) w evs.

(** ** Sample hosts and worlds *)

(** A network that answers every request with status 200 and the URL as
    body; no deletion fails. *)
Definition online : Host :=
  {| network := λ req, Fulfilled {| status := 200; body := url req; origin := Fetched |};
     delete_fails := λ _, false;
     put_fails := λ _ _, false |}.

(** No network. *)
Definition offline : Host :=
  {| network := λ _, Rejected NetworkError;
     delete_fails := λ _, false;
     put_fails := λ _ _, false |}.

(** A network on which the larger icon is missing. *)
Definition missing_icon : Host :=
  {| network := λ req,
       if decide (url req = "/icon-512.png")
       then Fulfilled {| status := 404; body := "Not Found"; origin := Fetched |}
       else Fulfilled {| status := 200; body := url req; origin := Fetched |};
     delete_fails := λ _, false;
     put_fails := λ _ _, false |}.

(** A server that answers everything with 404. *)
Definition not_found : Host :=
  {| network := λ _, Fulfilled {| status := 404; body := "Not Found"; origin := Fetched |};
     delete_fails := λ _, false;
     put_fails := λ _ _, false |}.

(** A host on which the bucket of the previous version cannot be deleted. *)
Definition locked : Host :=
  {| network := network online;
     delete_fails := λ k, bool_decide (k = "kr-close-report-v0");
     put_fails := λ _ _, false |}.

(** A server that answers every request with a part of the resource. *)
Definition ranged : Host :=
  {| network := λ _, Fulfilled {| status := 206; body := "bytes 0-99"; origin := Fetched |};
     delete_fails := λ _, false;
     put_fails := λ _ _, false |}.

(** A redeployed site: the root document has changed. *)
Definition redeployed : Host :=
  {| network := λ req, Fulfilled {| status := 200; body := "home, second edition"; origin := Fetched |};
     delete_fails := λ _, false;
     put_fails := λ _ _, false |}.

(** The cache storage of a browser that ran two earlier versions of the
    worker, before the current one is installed. *)
Definition upgrading : World :=
  {| caches :=
       [("kr-close-report-v0", {["/" := {| status := 200; body := "old home"; origin := Fetched |}]});
        ("kr-close-report-beta", {["/beta" := {| status := 200; body := "beta"; origin := Fetched |}]})];
     pending := [];
     calls := [] |}.

(** The same browser once the current worker is installed and activated. *)
Definition serving : World :=
  (activate_handler online (install_handler online upgrading).2).2.

(** A browser that has no cache storage yet. *)
Definition fresh : World := {| caches := []; pending := []; calls := [] |}.

(** A day of events after the install: the activation on a host that keeps
    the bucket of version 0 locked, a visit of the redeployed root, and its
    store settling. *)
Definition a_day : list Event :=
  [ActivateEvent locked; FetchEvent redeployed root_request; SettleEvent redeployed].

(** * Properties *)

(** ** Buckets *)

Section buckets.
Implicit Types (cs : CacheStorage) (b : Cache) (name k u : string).

Lemma get_bucket_app name cs cs' :
  get_bucket name (cs ++ cs') =
    match get_bucket name cs with
    | Some b => Some b
    | None => get_bucket name cs'
    end.
Proof.
  induction cs as [|[n b] cs IH]; simpl; [by destruct (get_bucket _ _)|].
  by case_decide.
Qed.

Lemma get_bucket_None name cs : get_bucket name cs = None ↔ name ∉ names cs.
Proof.
  induction cs as [|[n b] cs IH]; simpl.
  - split; [intros _; apply not_elem_of_nil | done].
  - rewrite not_elem_of_cons, <- IH.
    case_decide as Hn; split; try done.
    + by intros [Hne _].
    + by intros [_ ?].
Qed.

Lemma get_bucket_Some_elem name cs b :
  get_bucket name cs = Some b → (name, b) ∈ cs.
Proof.
  induction cs as [|[n b'] cs IH]; simpl; [done|].
  case_decide; [intros [= ->]; subst; left | right; auto].
Qed.

Lemma get_bucket_open name cs :
  get_bucket name (open_bucket name cs) =
    Some (default ∅ (get_bucket name cs)).
Proof.
  unfold open_bucket. destruct (get_bucket name cs) eqn:E; simpl; [done|].
  rewrite get_bucket_app, E. simpl. by case_decide.
Qed.

Lemma get_bucket_open_ne name k cs :
  k ≠ name → get_bucket k (open_bucket name cs) = get_bucket k cs.
Proof.
  intros Hne. unfold open_bucket. destruct (get_bucket name cs); [done|].
  rewrite get_bucket_app. simpl. case_decide; [congruence|].
  by destruct (get_bucket k cs).
Qed.

Lemma names_open name cs :
  names (open_bucket name cs) =
    names cs ++ match get_bucket name cs with Some _ => [] | None => [name] end.
Proof.
  unfold open_bucket, names. destruct (get_bucket name cs).
  - by rewrite app_nil_r.
  - by rewrite fmap_app.
Qed.

Lemma get_bucket_update name f cs :
  get_bucket name (update_bucket name f cs) = f <$> get_bucket name cs.
Proof.
  induction cs as [|[n b] cs IH]; simpl; [done|].
  case_decide; simpl; by case_decide.
Qed.

Lemma get_bucket_update_ne name k f cs :
  k ≠ name → get_bucket k (update_bucket name f cs) = get_bucket k cs.
Proof.
  intros Hne. induction cs as [|[n b] cs IH]; simpl; [done|].
  case_decide as Hn; simpl; case_decide as Hk; subst; done.
Qed.

Lemma names_update name f cs : names (update_bucket name f cs) = names cs.
Proof.
  unfold names. induction cs as [|[n b] cs IH]; simpl; [done|].
  case_decide; simpl; [done|]. by f_equal.
Qed.

Lemma names_put_entries name kvs cs :
  names (put_entries name kvs cs) = names cs.
Proof.
  unfold put_entries. revert cs.
  induction kvs as [|kv kvs IH]; intros cs; simpl; [done|].
  rewrite IH. apply names_update.
Qed.

Lemma names_remove k cs :
  names (remove_bucket k cs) = filter (λ n, n ≠ k) (names cs).
Proof.
  unfold names, remove_bucket. induction cs as [|[n b] cs IH]; simpl; [done|].
  rewrite !filter_cons. simpl. case_decide; simpl; [by f_equal|done].
Qed.

Lemma get_bucket_filter (P : string → Prop) `{!∀ n, Decision (P n)} name cs :
  P name →
  get_bucket name (filter (λ nb, P nb.1) cs) = get_bucket name cs.
Proof.
  intros HP. induction cs as [|[n b] cs IH]; simpl; [done|].
  rewrite filter_cons. simpl.
  case_decide as HPn; simpl; case_decide; subst; try done.
Qed.

(** The entry a put leaves in its bucket, and the entries it leaves
    alone. *)
Lemma bucket_entry_put name u res cs :
  is_Some (get_bucket name cs) →
  bucket_entry name u (put_entry name u res cs) = Some res.
Proof.
  intros [b Hb]. unfold bucket_entry, put_entry.
  rewrite get_bucket_update, Hb. simpl. apply lookup_insert_eq.
Qed.

Lemma bucket_entry_put_ne name u u' res cs :
  u ≠ u' →
  bucket_entry name u' (put_entry name u res cs) = bucket_entry name u' cs.
Proof.
  intros Hne. unfold bucket_entry, put_entry. rewrite get_bucket_update.
  destruct (get_bucket name cs); simpl; [|done]. by apply lookup_insert_ne.
Qed.

Lemma get_bucket_put_entries_is_Some name kvs cs :
  is_Some (get_bucket name cs) →
  is_Some (get_bucket name (put_entries name kvs cs)).
Proof.
  intros H. destruct (get_bucket name (put_entries name kvs cs)) eqn:E; [eauto|].
  apply get_bucket_None in E. rewrite names_put_entries in E.
  apply get_bucket_None in E. rewrite E in H. by destruct H.
Qed.

(** Storing a list of entries with distinct keys leaves each of them in
    the bucket. *)
Lemma bucket_entry_put_entries name kvs cs u res :
  is_Some (get_bucket name cs) →
  NoDup kvs.*1 →
  (u, res) ∈ kvs →
  bucket_entry name u (put_entries name kvs cs) = Some res.
Proof.
  intros Hb. induction kvs as [|[u' res'] kvs IH] using rev_ind; intros Hnd Hin.
  - by apply elem_of_nil in Hin.
  - unfold put_entries. rewrite foldl_app. simpl.
    fold (put_entries name kvs cs).
    rewrite fmap_app in Hnd. apply NoDup_app in Hnd as (Hnd & Hfresh & _).
    apply elem_of_app in Hin as [Hin | Hin].
    + rewrite bucket_entry_put_ne; [by apply IH|].
      intros ->. apply (Hfresh u); [|simpl; left].
      apply list_elem_of_fmap. by exists (u, res).
    + apply list_elem_of_singleton in Hin as [= -> ->].
      apply bucket_entry_put. by apply get_bucket_put_entries_is_Some.
Qed.
End buckets.

(** ** install *)

Lemma CORE_ASSETS_NoDup : NoDup CORE_ASSETS.
Proof. compute_done. Qed.

Lemma Forall2_zip_elem {A B} (R : A → B → Prop) (l : list A) (k : list B) x :
  Forall2 R l k → x ∈ l → ∃ y, (x, y) ∈ zip l k ∧ R x y.
Proof.
  induction 1 as [|a b l k HR _ IH]; intros Hx.
  - by apply elem_of_nil in Hx.
  - apply elem_of_cons in Hx as [-> | Hx].
    + exists b. split; [left | done].
    + destruct (IH Hx) as (y & Hy & HRy). exists y. split; [by right | done].
Qed.

(** The install handler, step by step: the bucket is opened, [addAll]
    fetches the assets and stores them or rejects, and [skipWaiting] is
    called. *)
Lemma install_handler_unfold h w :
  install_handler h w =
    match mapM (fetch_asset h) CORE_ASSETS with
    | Some rs =>
        (Fulfilled (),
         {| caches := put_entries CACHE_NAME (zip CORE_ASSETS rs)
                        (open_bucket CACHE_NAME (caches w));
            pending := pending w;
            calls := calls w ++ [CachesOpen CACHE_NAME;
                                 CacheAddAll CACHE_NAME CORE_ASSETS;
                                 SkipWaiting] |})
    | None =>
        (Rejected TypeError,
         {| caches := open_bucket CACHE_NAME (caches w);
            pending := pending w;
            calls := calls w ++ [CachesOpen CACHE_NAME;
                                 CacheAddAll CACHE_NAME CORE_ASSETS;
                                 SkipWaiting] |})
    end.
Proof.
  unfold install_handler, install_promise, then_, caches_open, cache_addAll.
  generalize CORE_ASSETS as urls. intros urls.
  destruct (mapM (fetch_asset h) urls);
    unfold skipWaiting, log, set_caches; simpl; by rewrite <- !app_assoc.
Qed.

Lemma calls_since_app w w' cs :
  calls w' = calls w ++ cs → calls_since w w' = cs.
Proof. unfold calls_since. intros ->. apply drop_app_length. Qed.

(** C4. After the install operation has completed successfully, every path
    of the core asset list has an entry in the bucket named by the current
    version string, which therefore exists; the entry is the response that
    was fetched for the path. *)
Theorem install_populates_core_assets (h : Host) (w : World) :
  (install_handler h w).1 = Fulfilled () →
  ∀ p, p ∈ CORE_ASSETS →
    ∃ r, bucket_entry CACHE_NAME p (caches (install_handler h w).2) = Some r
         ∧ network h (request_of p) = Fulfilled r.
Proof.
  rewrite install_handler_unfold.
  destruct (mapM (fetch_asset h) CORE_ASSETS) as [rs|] eqn:Hrs; [|done].
  intros _ p Hp. cbn [snd caches].
  apply mapM_Some in Hrs.
  destruct (Forall2_zip_elem _ _ _ p Hrs Hp) as (r & Hin & Hr).
  exists r. split.
  - apply bucket_entry_put_entries; [| |done].
    + rewrite get_bucket_open. eauto.
    + rewrite fst_zip; [apply CORE_ASSETS_NoDup|].
      by rewrite (Forall2_length _ _ _ Hrs).
  - unfold fetch_asset in Hr.
    destruct (network h (request_of p)); [|done].
    destruct (is_ok a); congruence.
Qed.

(** C8. If a core asset cannot be fetched (the fetch rejects, or answers
    with a status that is not ok), the promise of the install handler
    rejects and the host discards the worker; the handler stores nothing and
    does nothing else than opening the bucket, calling [addAll] and calling
    [skipWaiting]. *)
Theorem install_fails_when_asset_unreachable (h : Host) (w : World) (p : string) :
  p ∈ CORE_ASSETS →
  fetch_asset h p = None →
  (install_handler h w).1 = Rejected TypeError
  ∧ (install_event h w).1 = Redundant
  ∧ caches (install_event h w).2 = open_bucket CACHE_NAME (caches w)
  ∧ calls_since w (install_event h w).2 =
      [CachesOpen CACHE_NAME; CacheAddAll CACHE_NAME CORE_ASSETS; SkipWaiting]
  ∧ pending (install_event h w).2 = pending w.
Proof.
  intros Hp Hfail. unfold install_event. rewrite install_handler_unfold.
  assert (mapM (fetch_asset h) CORE_ASSETS = None) as ->.
  { apply mapM_None, Exists_exists. eauto. }
  simpl. repeat split. by apply calls_since_app.
Qed.

(** ** activate *)

Lemma filter_all {A} (P : A → Prop) `{!∀ x, Decision (P x)} (l : list A) :
  (∀ x, x ∈ l → P x) → filter P l = l.
Proof.
  induction l as [|x l IH]; intros Hall; [done|].
  rewrite filter_cons_True by (apply Hall; left).
  f_equal. apply IH. intros y Hy. apply Hall. by right.
Qed.

(** [Promise.all] over the array built by [keys.map]: every deletion is
    attempted once, in the order of [ks]; a bucket listed in [ks] is gone
    afterwards unless it survives. *)
Lemma promise_all_delete h ks : ∀ w,
  caches (promise_all (map delete_if_stale ks) h w).2 =
    filter (λ nb, nb.1 ∉ ks ∨ survives h nb.1) (caches w)
  ∧ pending (promise_all (map delete_if_stale ks) h w).2 = pending w
  ∧ calls (promise_all (map delete_if_stale ks) h w).2 =
      calls w ++ map CachesDelete (filter (λ k, k ≠ CACHE_NAME) ks)
  ∧ is_fulfilled (promise_all (map delete_if_stale ks) h w).1 =
      forallb (λ k, bool_decide (survives h k → k = CACHE_NAME)) ks.
Proof.
  induction ks as [|k ks IH]; intros w.
  - simpl. repeat split; [|by rewrite app_nil_r].
    symmetry. apply filter_all. intros nb _. left. apply not_elem_of_nil.
  - cbn [map promise_all]. unfold delete_if_stale at 1 3 5 7.
    destruct (decide (k ≠ CACHE_NAME)) as [Hstale | Hcur].
    + unfold then_, caches_delete, resolve.
      destruct (delete_fails h k) eqn:Hfail.
      * (* the deletion of [k] rejects: its bucket stays *)
        destruct (IH (log (CachesDelete k) w)) as (Hc & Hp & Hl & Hf).
        destruct (promise_all _ h (log (CachesDelete k) w)) as [rs w2].
        cbn [fst snd] in *. rewrite Hc, Hp, Hl. cbn [log caches pending calls].
        repeat split.
        -- apply list_filter_iff. intros [n b]. cbn [fst].
           rewrite not_elem_of_cons. split.
           ++ intros [Hn | Hs]; [|by right].
              destruct (decide (n = k)) as [-> | Hne]; [|by left].
              right. by right.
           ++ intros [[_ Hn] | Hs]; [by left | by right].
        -- rewrite filter_cons_True by done. cbn [map].
           by rewrite <- app_assoc.
        -- cbn [forallb is_fulfilled]. rewrite bool_decide_false; [done|].
           intros Himp. apply Hstale, Himp. by right.
      * (* the deletion of [k] succeeds: its bucket goes *)
        set (w1 := log (CachesDelete k)
                     (set_caches (remove_bucket k (caches w)) w)).
        destruct (IH w1) as (Hc & Hp & Hl & Hf).
        destruct (promise_all _ h w1) as [rs w2].
        cbn [fst snd] in *. rewrite Hc, Hp, Hl.
        subst w1. cbn [log set_caches caches pending calls].
        repeat split.
        -- unfold remove_bucket. rewrite list_filter_filter.
           apply list_filter_iff. intros [n b]. cbn [fst].
           rewrite not_elem_of_cons. split.
           ++ intros [[Hn | Hs] Hne]; [by left | by right].
           ++ intros [[Hne Hn] | Hs]; [by split; [left|] |].
              split; [by right|]. intros ->.
              destruct Hs as [Hs | Hs]; [done | congruence].
        -- rewrite filter_cons_True by done. cbn [map].
           by rewrite <- app_assoc.
        -- cbn [forallb].
           rewrite <- Hf, (bool_decide_true (survives h k → k = CACHE_NAME)).
           ++ by destruct rs.
           ++ intros [-> | Hs]; [done | congruence].
    + (* [k] is the current bucket: no deletion is started *)
      apply dec_stable in Hcur. subst k. unfold resolve.
      destruct (IH w) as (Hc & Hp & Hl & Hf).
      destruct (promise_all _ h w) as [rs w2].
      cbn [fst snd] in *. rewrite Hc, Hp, Hl. repeat split.
      * apply list_filter_iff. intros [n b]. cbn [fst].
        rewrite not_elem_of_cons. split.
        -- intros [Hn | Hs]; [|by right].
           destruct (decide (n = CACHE_NAME)) as [-> | Hne]; [|by left].
           right. by left.
        -- intros [[_ Hn] | Hs]; [by left | by right].
      * cbn [forallb]. rewrite <- Hf, bool_decide_true by done.
        by destruct rs.
Qed.

Lemma filter_ext_elem {A} (P Q : A → Prop)
    `{!∀ x, Decision (P x)} `{!∀ x, Decision (Q x)} (l : list A) :
  (∀ x, x ∈ l → P x ↔ Q x) → filter P l = filter Q l.
Proof.
  induction l as [|x l IH]; intros Hext; [done|].
  assert (filter P l = filter Q l) as Hl.
  { apply IH. intros y Hy. apply Hext. by right. }
  destruct (decide (P x)) as [HP | HP].
  - rewrite !filter_cons_True; [by f_equal | by apply Hext; [left|] | done].
  - rewrite !filter_cons_False; [done | | done].
    intros HQ. apply HP, Hext; [left | done].
Qed.

Lemma names_filter (P : string → Prop) `{!∀ n, Decision (P n)} (cs : CacheStorage) :
  names (filter (λ nb, P nb.1) cs) = filter P (names cs).
Proof.
  unfold names. induction cs as [|[n b] cs IH]; [done|].
  rewrite fmap_cons, !filter_cons. cbn [fst].
  destruct (decide (P n)); [rewrite fmap_cons; cbn [fst]; by f_equal | done].
Qed.

Lemma NoDup_all_equal {A} (a : A) (l : list A) :
  NoDup l → (∀ x, x ∈ l → x = a) → (length l ≤ 1)%nat.
Proof.
  intros Hnd Hall. destruct Hnd as [|x l Hx Hnd]; simpl; [lia|].
  destruct l as [|y l]; simpl; [lia|]. exfalso. apply Hx.
  rewrite (Hall x), <- (Hall y); [left | right; left | left].
Qed.

(** The activate handler as a whole: the buckets that survive are kept, in
    order and unchanged; the calls are [caches.keys()], one
    [caches.delete] per stale name, and [clients.claim()]; the promise of
    [waitUntil] fulfils exactly when no stale bucket survives. *)
Lemma activate_handler_effect h w :
  caches (activate_handler h w).2 = filter (λ nb, survives h nb.1) (caches w)
  ∧ pending (activate_handler h w).2 = pending w
  ∧ calls (activate_handler h w).2 =
      calls w ++ CachesKeys ::
        map CachesDelete (filter (λ k, k ≠ CACHE_NAME) (names (caches w)))
        ++ [ClientsClaim]
  ∧ is_fulfilled (activate_handler h w).1 =
      forallb (λ k, bool_decide (survives h k → k = CACHE_NAME))
        (names (caches w)).
Proof.
  unfold activate_handler, activate_promise, then_, caches_keys.
  destruct (promise_all_delete h (names (caches w)) (log CachesKeys w))
    as (Hc & Hp & Hl & Hf).
  destruct (promise_all _ h (log CachesKeys w)) as [rs w2].
  cbn [fst snd] in *. unfold clients_claim. cbn [log caches pending calls] in *.
  rewrite Hc, Hp, Hl. split; [|split; [done|split; [|done]]].
  - apply filter_ext_elem.
    intros [n b] Hin. cbn [fst]. split; [|by right].
    intros [Hn | Hs]; [|done]. exfalso. apply Hn.
    apply list_elem_of_fmap. by exists (n, b).
  - by rewrite <- !app_assoc.
Qed.

(** When the promise of the activate handler fulfils, no stale bucket is
    left. *)
Lemma activate_fulfilled_only_current h w :
  is_fulfilled (activate_handler h w).1 = true →
  only_current (caches (activate_handler h w).2).
Proof.
  intros Hok. destruct (activate_handler_effect h w) as (Hc & _ & _ & Hf).
  rewrite Hf in Hok. rewrite Hc. clear Hc Hf.
  intros k Hk. rewrite names_filter in Hk.
  apply list_elem_of_filter in Hk as [Hs Hk].
  apply Is_true_true, forallb_True in Hok.
  rewrite Forall_forall in Hok. specialize (Hok k Hk).
  apply bool_decide_unpack in Hok. auto.
Qed.

(** C3. After the activate operation has completed (the promise handed to
    [waitUntil] has fulfilled), every bucket that exists is named by the
    current version string, so at most one bucket remains; the bucket of
    the current version is the one that was there before. *)
Theorem activate_leaves_only_current (h : Host) (w : World) :
  NoDup (names (caches w)) →
  is_fulfilled (activate_handler h w).1 = true →
  only_current (caches (activate_handler h w).2)
  ∧ (length (caches (activate_handler h w).2) ≤ 1)%nat
  ∧ get_bucket CACHE_NAME (caches (activate_handler h w).2) =
      get_bucket CACHE_NAME (caches w).
Proof.
  intros Hnd Hok.
  pose proof (activate_fulfilled_only_current h w Hok) as Hcur.
  destruct (activate_handler_effect h w) as (Hc & _ & _ & _).
  rewrite Hc in *. clear Hc.
  split; [done|]. split.
  - rewrite <- (length_fmap fst). apply (NoDup_all_equal CACHE_NAME); [|done].
    fold (names (filter (λ nb, survives h nb.1) (caches w))).
    rewrite names_filter. by apply NoDup_filter.
  - apply (get_bucket_filter (survives h)). by left.
Qed.

(** C7. Each stale bucket is deleted on its own: whatever deletions fail,
    the host activates the worker, [clients.claim()] is called, every stale
    bucket whose own deletion does not fail is gone, and a bucket whose
    deletion fails stays as it was.  The handler attempts each deletion
    once and does nothing about a failure: its calls are [caches.keys()],
    one [caches.delete] per stale bucket, and [clients.claim()]. *)
Theorem activate_deletions_best_effort (h : Host) (w : World) :
  (activate_event h w).1 = Activated
  ∧ calls_since w (activate_event h w).2 =
      CachesKeys ::
        map CachesDelete (filter (λ k, k ≠ CACHE_NAME) (names (caches w)))
        ++ [ClientsClaim]
  ∧ (∀ k, k ≠ CACHE_NAME → delete_fails h k = false →
       k ∉ names (caches (activate_event h w).2))
  ∧ (∀ k, delete_fails h k = true →
       get_bucket k (caches (activate_event h w).2) = get_bucket k (caches w))
  ∧ get_bucket CACHE_NAME (caches (activate_event h w).2) =
      get_bucket CACHE_NAME (caches w)
  ∧ pending (activate_event h w).2 = pending w.
Proof.
  unfold activate_event.
  destruct (activate_handler_effect h w) as (Hc & Hp & Hl & _).
  destruct (activate_handler h w) as [r w']. cbn [fst snd] in *.
  split; [done|]. split; [by apply calls_since_app|].
  rewrite Hc. split; [|split; [|split; [|done]]].
  - intros k Hstale Hdel. rewrite names_filter.
    intros [[Hs | Hs] _]%list_elem_of_filter; [done | congruence].
  - intros k Hfail. apply (get_bucket_filter (survives h)). by right.
  - apply (get_bucket_filter (survives h)). by left.
Qed.

(** ** fetch *)

Lemma CloneOf_ne o : CloneOf o ≠ o.
Proof. induction o as [|o IH]; intros [= Heq]; by apply IH. Qed.

(** A clone is another object than the response it was made from. *)
Lemma clone_ne res : clone res ≠ res.
Proof.
  intros Heq. apply (CloneOf_ne (origin res)).
  by rewrite <- Heq at 2.
Qed.

(** [cache.put] accepts a GET request with a response that is not partial,
    unless the host refuses the pair otherwise. *)
Lemma put_accepted h req res :
  method req = "GET" →
  status res ≠ 206%nat →
  put_fails h req res = false →
  put_refused h req res = false.
Proof.
  intros Hm Hs Hf. unfold put_refused.
  by rewrite bool_decide_false, bool_decide_false, Hf by auto.
Qed.

Lemma fetch_handler_not_GET req h w :
  method req ≠ "GET" → fetch_handler req h w = (PassThrough, w).
Proof. intros Hm. unfold fetch_handler. by case_decide. Qed.

(** The then branch: one call, the fetch; the store is queued. *)
Lemma fetch_handler_fulfilled req h w res :
  method req = "GET" →
  network h req = Fulfilled res →
  fetch_handler req h w =
    (RespondWith (Fulfilled (Some res)),
     {| caches := caches w;
        pending := pending w ++ [PutTask req (clone res)];
        calls := calls w ++ [HostFetch req] |}).
Proof.
  intros Hm Hnet. unfold fetch_handler. case_decide; [done|].
  unfold respond_promise, catch_, then_, fetch, detach, resolve.
  by rewrite Hnet.
Qed.

(** The catch branch: the fetch, the lookup of the request, and the lookup
    of the root when the first one found nothing. *)
Lemma fetch_handler_rejected req h w e :
  method req = "GET" →
  network h req = Rejected e →
  fetch_handler req h w =
    (RespondWith (Fulfilled (first_defined
       [lookup_storage (url req) (caches w); lookup_storage "/" (caches w)])),
     {| caches := caches w;
        pending := pending w;
        calls := calls w ++ HostFetch req :: CachesMatch req ::
                   match lookup_storage (url req) (caches w) with
                   | Some _ => []
                   | None => [CachesMatch (request_of "/")]
                   end |}).
Proof.
  intros Hm Hnet. unfold fetch_handler. case_decide; [done|].
  unfold respond_promise, catch_, then_, fetch, caches_match.
  rewrite Hnet. cbn [log caches pending calls].
  rewrite decide_True by done.
  destruct (lookup_storage (url req) (caches w)) as [c|];
    unfold or_root, resolve, caches_match, log; cbn.
  - by rewrite <- !app_assoc.
  - rewrite <- !app_assoc, (decide_True (P := "GET" = "GET")) by done.
    by destruct (lookup_storage "/" (caches w)).
Qed.

(** A detached store, once it runs: the bucket is opened and the entry is
    put. *)
Lemma run_task_caches req copy h w :
  caches (run_task (PutTask req copy) h w).2 =
    if put_refused h req copy
    then open_bucket CACHE_NAME (caches w)
    else put_entry CACHE_NAME (url req) copy (open_bucket CACHE_NAME (caches w)).
Proof.
  unfold run_task, then_, caches_open, cache_put.
  by destruct (put_refused h req copy).
Qed.

Lemma run_tasks_app ts ts' h w :
  run_tasks (ts ++ ts') h w = run_tasks ts' h (run_tasks ts h w).
Proof. revert w. induction ts as [|t ts IH]; intros w; simpl; [done | apply IH]. Qed.

Lemma drain_spawned h cs ts t l :
  drain h {| caches := cs; pending := ts ++ [t]; calls := l |} =
    (run_task t h (drain h {| caches := cs; pending := ts; calls := l |})).2.
Proof. unfold drain. cbn [pending caches calls]. by rewrite run_tasks_app. Qed.

Lemma bucket_entry_run_task req copy h w :
  put_refused h req copy = false →
  bucket_entry CACHE_NAME (url req) (caches (run_task (PutTask req copy) h w).2)
    = Some copy.
Proof.
  intros Hok. rewrite run_task_caches, Hok. apply bucket_entry_put.
  rewrite get_bucket_open. eauto.
Qed.

(** C1. When the fetch of a GET request rejects, the promise handed to
    [respondWith] resolves with the first defined value of: the cached entry
    of the request, the cached entry of ["/"]; with [undefined] when both
    are absent.  The cache storage is not changed. *)
Theorem fetch_failure_fallback_chain (h : Host) (w : World) (req : Request) (e : Error) :
  method req = "GET" →
  network h req = Rejected e →
  (fetch_handler req h w).1 =
    RespondWith (Fulfilled (first_defined
      [lookup_storage (url req) (caches w); lookup_storage "/" (caches w)]))
  ∧ caches (fetch_handler req h w).2 = caches w
  ∧ pending (fetch_handler req h w).2 = pending w.
Proof.
  intros Hm Hnet. by rewrite (fetch_handler_rejected _ _ _ e).
Qed.

(** C2, amended. When the fetch of a GET request fulfils, the handler
    answers with the network response itself, whatever becomes of the store;
    at that point the cache storage is as it was and the store is queued, a
    detached chain holding the clone, which is another object than the
    response and has its status and body.  Once the chain has run, the
    bucket of the current version holds the clone under the request's URL,
    provided [cache.put] accepts it: the response is not partial (status
    206) and the host does not refuse the pair otherwise. *)
Theorem fetch_success_returns_and_stores (h : Host) (w : World) (req : Request)
    (res : Response) :
  method req = "GET" →
  network h req = Fulfilled res →
  (fetch_handler req h w).1 = RespondWith (Fulfilled (Some res))
  ∧ page_receives h req (fetch_handler req h w).1 = Fulfilled res
  ∧ caches (fetch_handler req h w).2 = caches w
  ∧ pending (fetch_handler req h w).2 = pending w ++ [PutTask req (clone res)]
  ∧ (status res ≠ 206%nat →
     put_fails h req (clone res) = false →
     bucket_entry CACHE_NAME (url req)
       (caches (drain h (fetch_handler req h w).2)) = Some (clone res))
  ∧ clone res ≠ res
  ∧ status (clone res) = status res ∧ body (clone res) = body res.
Proof.
  intros Hm Hnet. rewrite (fetch_handler_fulfilled _ _ _ res) by done.
  cbn [fst snd page_receives caches pending].
  do 4 (split; [done|]). split; [|split; [apply clone_ne | done]].
  intros Hs Hf. rewrite drain_spawned.
  by apply bucket_entry_run_task, put_accepted.
Qed.

(** C5. A request whose method is not GET is not intercepted: the handler
    returns without calling [respondWith] and without any host call or
    change, and the page receives what the network answers. *)
Theorem non_GET_passes_through (h : Host) (w : World) (req : Request) :
  method req ≠ "GET" →
  fetch_handler req h w = (PassThrough, w)
  ∧ page_receives h req (fetch_handler req h w).1 = network h req.
Proof.
  intros Hm. by rewrite fetch_handler_not_GET.
Qed.

Lemma fallback_taken_app w w' cs :
  calls w' = calls w ++ cs → fallback_taken w w' = existsb is_match_call cs.
Proof. intros H. unfold fallback_taken. by rewrite (calls_since_app _ _ cs). Qed.

(** C10, amended. For a GET request the lookup chain of the catch branch is
    entered exactly when the fetch rejects.  A fetch that fulfils, with
    whatever status, is answered with its response; the clone is stored in
    the bucket of the current version under the request's URL when
    [cache.put] accepts it, which it does for every status but 206 (for 404
    and 500 as for 200) unless the host refuses the pair otherwise. *)
Theorem fallback_iff_fetch_rejects (h : Host) (w : World) (req : Request) :
  method req = "GET" →
  (fallback_taken w (fetch_handler req h w).2 = true
     ↔ ∃ e, network h req = Rejected e)
  ∧ (∀ res, network h req = Fulfilled res →
       (fetch_handler req h w).1 = RespondWith (Fulfilled (Some res))
       ∧ page_receives h req (fetch_handler req h w).1 = Fulfilled res
       ∧ (status res ≠ 206%nat →
          put_fails h req (clone res) = false →
          bucket_entry CACHE_NAME (url req)
            (caches (drain h (fetch_handler req h w).2)) = Some (clone res))).
Proof.
  intros Hm. destruct (network h req) as [res | e] eqn:Hnet.
  - rewrite (fetch_handler_fulfilled _ _ _ res) by done. split.
    + rewrite (fallback_taken_app _ _ [HostFetch req]) by done.
      split; [done | by intros [e He]].
    + intros res' [= <-]. cbn [fst snd page_receives].
      do 2 (split; [done|]). intros Hs Hf. rewrite drain_spawned.
      by apply bucket_entry_run_task, put_accepted.
  - rewrite (fetch_handler_rejected _ _ _ e) by done. split; [|done].
    erewrite fallback_taken_app by done. split; [eauto | done].
Qed.

(** The fetch handler itself never changes the cache storage: the only
    store it starts is the detached one. *)
Lemma fetch_handler_caches req h w : caches (fetch_handler req h w).2 = caches w.
Proof.
  destruct (decide (method req = "GET")) as [Hm | Hm].
  - destruct (network h req) as [res | e] eqn:Hnet.
    + by rewrite (fetch_handler_fulfilled _ _ _ res).
    + by rewrite (fetch_handler_rejected _ _ _ e).
  - by rewrite fetch_handler_not_GET.
Qed.

Lemma names_run_tasks ts h w :
  ∀ k, k ∈ names (caches (run_tasks ts h w)) →
       k ∈ names (caches w) ∨ k = CACHE_NAME.
Proof.
  revert w. induction ts as [|[req copy] ts IH]; intros w k Hk; [by left|].
  apply IH in Hk as [Hk | ->]; [|by right].
  rewrite run_task_caches in Hk.
  assert (k ∈ names (open_bucket CACHE_NAME (caches w))) as Hk'.
  { destruct (put_refused h req copy); [done|].
    unfold put_entry in Hk. by rewrite names_update in Hk. }
  clear Hk. rename Hk' into Hk. rewrite names_open in Hk.
  apply elem_of_app in Hk as [Hk | Hk]; [by left|].
  destruct (get_bucket CACHE_NAME (caches w)).
  - by apply elem_of_nil in Hk.
  - apply list_elem_of_singleton in Hk. by right.
Qed.

Lemma only_current_drain h w :
  only_current (caches w) → only_current (caches (drain h w)).
Proof.
  intros Hw k Hk. apply names_run_tasks in Hk as [Hk | ->]; [by apply Hw | done].
Qed.

(** ** The round trip through the cache *)

Section round_trip.
Implicit Types (cs : CacheStorage) (u : string).

(** When no other bucket holds an entry for a URL, [caches.match] answers
    with the entry of the current bucket. *)
Lemma lookup_storage_current u cs v :
  only_current_holds u cs →
  bucket_entry CACHE_NAME u cs = Some v →
  lookup_storage u cs = Some v.
Proof.
  unfold bucket_entry. induction 1 as [|[n b] cs Hnb _ IH]; simpl; [done|].
  case_decide as Hn; simpl.
  - by intros ->.
  - cbn [fst snd] in Hnb. rewrite (Hnb Hn). apply IH.
Qed.

Lemma only_current_holds_open u cs :
  only_current_holds u cs → only_current_holds u (open_bucket CACHE_NAME cs).
Proof.
  intros H. unfold open_bucket. destruct (get_bucket CACHE_NAME cs); [done|].
  apply Forall_app. split; [done|]. by apply Forall_singleton.
Qed.

Lemma only_current_holds_update u f cs :
  only_current_holds u cs → only_current_holds u (update_bucket CACHE_NAME f cs).
Proof.
  induction 1 as [|[n b] cs Hnb Hcs IH]; simpl; [constructor|].
  case_decide as Hn.
  - constructor; [|done]. by intros [].
  - by constructor.
Qed.

Lemma only_current_holds_run_tasks u ts h w :
  only_current_holds u (caches w) →
  only_current_holds u (caches (run_tasks ts h w)).
Proof.
  revert w. induction ts as [|[req copy] ts IH]; intros w Hw; [done|].
  apply IH. rewrite run_task_caches.
  destruct (put_refused h req copy).
  - by apply only_current_holds_open.
  - by apply only_current_holds_update, only_current_holds_open.
Qed.

Lemma only_current_holds_drain u h w :
  only_current_holds u (caches w) → only_current_holds u (caches (drain h w)).
Proof. intros Hw. by apply only_current_holds_run_tasks. Qed.

(** The state activation leaves satisfies the condition for every URL. *)
Lemma only_current_holds_intro u cs :
  only_current cs → only_current_holds u cs.
Proof.
  intros Hcur. apply Forall_forall. intros [n b] Hin Hn. destruct Hn.
  apply Hcur, list_elem_of_fmap. by exists (n, b).
Qed.
End round_trip.

(** The round trip from any world in which no other bucket holds an entry
    for the root. *)
Lemma round_trip_when_only_current_holds (h_on h_off : Host) (w : World) (res : Response) (e : Error) :
  only_current_holds "/" (caches w) →
  network h_on root_request = Fulfilled res →
  put_refused h_on root_request (clone res) = false →
  network h_off root_request = Rejected e →
  let online := fetch_handler root_request h_on w in
  let w' := drain h_on online.2 in
  let offline := fetch_handler root_request h_off w' in
  online.1 = RespondWith (Fulfilled (Some res))
  ∧ bucket_entry CACHE_NAME "/" (caches w') = Some (clone res)
  ∧ offline.1 = RespondWith (Fulfilled (Some (clone res)))
  ∧ page_receives h_off root_request offline.1 = Fulfilled (clone res).
Proof.
  intros Hw Hon Hput Hoff online w' offline.
  assert (online.1 = RespondWith (Fulfilled (Some res))) as H1.
  { subst online. by rewrite (fetch_handler_fulfilled _ _ _ res). }
  assert (bucket_entry CACHE_NAME "/" (caches w') = Some (clone res)) as H2.
  { subst w' online. rewrite (fetch_handler_fulfilled _ _ _ res) by done.
    cbn [snd]. rewrite drain_spawned.
    by apply (bucket_entry_run_task root_request). }
  assert (lookup_storage "/" (caches w') = Some (clone res)) as H3.
  { apply lookup_storage_current; [|done]. subst w' online.
    apply only_current_holds_drain.
    by rewrite (fetch_handler_fulfilled _ _ _ res). }
  assert (offline.1 = RespondWith (Fulfilled (Some (clone res)))) as H4.
  { subst offline. rewrite (fetch_handler_rejected _ _ _ e) by done.
    cbn [fst url root_request request_of first_defined]. by rewrite H3. }
  repeat split; try done. by rewrite H4.
Qed.

(** In the steady phase the current bucket is the only one. *)
Lemma steady_only_current w : steady w → only_current (caches w).
Proof.
  induction 1 as [h w Hok | req h w _ IH | h w _ IH].
  - by apply activate_fulfilled_only_current.
  - by rewrite fetch_handler_caches.
  - by apply only_current_drain.
Qed.

(** C9, amended. In the steady phase (the worlds reached from an activation
    whose promise fulfilled, where no stale bucket is left), the root
    document is fetched through the handler while the network answers with
    a response [cache.put] accepts (not partial, not refused otherwise), and
    the detached store runs; then the root is fetched again while the
    network fails.  The first fetch leaves its response in the bucket under
    the root key, and the second fetch is answered with that stored
    response, not with an error. *)
Theorem root_round_trip (h_on h_off : Host) (w : World) (res : Response) (e : Error) :
  steady w →
  network h_on root_request = Fulfilled res →
  status res ≠ 206%nat →
  put_fails h_on root_request (clone res) = false →
  network h_off root_request = Rejected e →
  let online := fetch_handler root_request h_on w in
  let w' := drain h_on online.2 in
  let offline := fetch_handler root_request h_off w' in
  online.1 = RespondWith (Fulfilled (Some res))
  ∧ bucket_entry CACHE_NAME "/" (caches w') = Some (clone res)
  ∧ offline.1 = RespondWith (Fulfilled (Some (clone res)))
  ∧ page_receives h_off root_request offline.1 = Fulfilled (clone res).
Proof.
  intros Hw Hon Hs Hf. apply round_trip_when_only_current_holds; [|done|].
  - by apply only_current_holds_intro, steady_only_current.
  - by apply put_accepted.
Qed.

(** ** The constants *)

(** C6, as stated, does not hold: the core asset list does not have four
    paths, and ["/index.html"] is one of its paths and none of the four
    listed. *)
Lemma core_assets_not_the_four_listed :
  ¬ (length CORE_ASSETS = 4%nat
     ∧ (∀ p, p ∈ CORE_ASSETS ↔ p ∈ listed_core_assets)
     ∧ CACHE_NAME = "kr-close-report-v1")
  ∧ "/index.html" ∈ CORE_ASSETS
  ∧ "/index.html" ∉ listed_core_assets.
Proof.
  assert ("/index.html" ∈ CORE_ASSETS) as Hin
    by (unfold CORE_ASSETS; right; left).
  assert ("/index.html" ∉ listed_core_assets) as Hout.
  { unfold listed_core_assets. rewrite !not_elem_of_cons.
    repeat split; try discriminate. apply not_elem_of_nil. }
  split; [|done]. intros (_ & Hsame & _). by apply Hout, Hsame.
Qed.

(** C6, amended. The core asset list is the fixed list of five absolute
    paths: the root document, ["/index.html"], the manifest and the icon at
    two resolutions; the current version bucket name is
    ["kr-close-report-v1"]. *)
Theorem core_assets_and_cache_name :
  CORE_ASSETS =
    ["/"; "/index.html"; "/manifest.webmanifest"; "/icon-192.png"; "/icon-512.png"]
  ∧ length CORE_ASSETS = 5%nat
  ∧ (∀ p, p ∈ CORE_ASSETS ↔ p = "/index.html" ∨ p ∈ listed_core_assets)
  ∧ CACHE_NAME = "kr-close-report-v1".
Proof.
  split; [done|]. split; [done|]. split; [|done].
  intros p. unfold CORE_ASSETS, listed_core_assets.
  rewrite !elem_of_cons, !elem_of_nil. split.
  - intros [-> | [-> | [-> | [-> | [-> | []]]]]]; auto 10.
  - intros [-> | [-> | [-> | [-> | [-> | []]]]]]; auto 10.
Qed.

(** ** Bucket names stay distinct *)

Lemma NoDup_names_open name (cs : CacheStorage) :
  NoDup (names cs) → NoDup (names (open_bucket name cs)).
Proof.
  intros Hnd. rewrite names_open. destruct (get_bucket name cs) eqn:E.
  - by rewrite app_nil_r.
  - apply NoDup_app. split; [done|]. split; [|apply NoDup_singleton].
    intros k Hk ->%list_elem_of_singleton. by apply get_bucket_None in E.
Qed.

Lemma NoDup_names_install h w :
  NoDup (names (caches w)) → NoDup (names (caches (install_handler h w).2)).
Proof.
  intros Hnd. rewrite install_handler_unfold.
  destruct (mapM (fetch_asset h) CORE_ASSETS); cbn [snd caches].
  - rewrite names_put_entries. by apply NoDup_names_open.
  - by apply NoDup_names_open.
Qed.

Lemma NoDup_names_activate h w :
  NoDup (names (caches w)) → NoDup (names (caches (activate_handler h w).2)).
Proof.
  intros Hnd. destruct (activate_handler_effect h w) as (-> & _).
  rewrite names_filter. by apply NoDup_filter.
Qed.

Lemma NoDup_names_run_tasks ts h w :
  NoDup (names (caches w)) → NoDup (names (caches (run_tasks ts h w))).
Proof.
  revert w. induction ts as [|[req copy] ts IH]; intros w Hnd; [done|].
  apply IH. rewrite run_task_caches.
  destruct (put_refused h req copy); [by apply NoDup_names_open|].
  unfold put_entry. rewrite names_update. by apply NoDup_names_open.
Qed.

(** ** The theorems on the sample worlds *)

(** Offline, a page that was never cached is answered with the cached root. *)
Lemma fetch_failure_fallback_chain_witness :
  let req := request_of "/reports/today" in
  method req = "GET"
  ∧ network offline req = Rejected NetworkError
  ∧ (fetch_handler req offline serving).1 =
      RespondWith (Fulfilled (Some {| status := 200; body := "/"; origin := Fetched |})).
Proof.
  intros req. split; [reflexivity|]. split; [reflexivity|].
  exact (proj1 (fetch_failure_fallback_chain offline serving req NetworkError
                  eq_refl eq_refl)).
Defined.

(** Online, a report page is answered from the network and lands in the
    current bucket. *)
Lemma fetch_success_returns_and_stores_witness :
  let req := request_of "/reports/today" in
  let res := {| status := 200; body := "/reports/today"; origin := Fetched |} in
  method req = "GET"
  ∧ network online req = Fulfilled res
  ∧ status res ≠ 206%nat
  ∧ put_fails online req (clone res) = false
  ∧ (fetch_handler req online serving).1 = RespondWith (Fulfilled (Some res))
  ∧ bucket_entry CACHE_NAME "/reports/today"
      (caches (drain online (fetch_handler req online serving).2))
    = Some (clone res).
Proof.
  intros req res.
  assert (status res ≠ 206%nat) as Hs by (intros Heq; discriminate Heq).
  split; [reflexivity|]. split; [reflexivity|]. split; [exact Hs|].
  split; [reflexivity|].
  destruct (fetch_success_returns_and_stores online serving req res
              eq_refl eq_refl) as (Hres & _ & _ & _ & Hstored & _).
  split; [exact Hres | exact (Hstored Hs eq_refl)].
Defined.

(** Activating over the buckets of two earlier versions leaves the current
    bucket alone. *)
Lemma activate_leaves_only_current_witness :
  let w := (install_handler online upgrading).2 in
  NoDup (names (caches w))
  ∧ is_fulfilled (activate_handler online w).1 = true
  ∧ names (caches (activate_handler online w).2) = [CACHE_NAME].
Proof.
  intros w.
  assert (NoDup (names (caches w))) as Hnd by compute_done.
  split; [exact Hnd|]. split; [reflexivity|].
  destruct (activate_leaves_only_current online w Hnd eq_refl) as (_ & _ & _).
  reflexivity.
Defined.

(** Installing online stores the manifest. *)
Lemma install_populates_core_assets_witness :
  (install_handler online upgrading).1 = Fulfilled ()
  ∧ "/manifest.webmanifest" ∈ CORE_ASSETS
  ∧ ∃ r, bucket_entry CACHE_NAME "/manifest.webmanifest"
           (caches (install_handler online upgrading).2) = Some r
         ∧ network online (request_of "/manifest.webmanifest") = Fulfilled r.
Proof.
  assert ("/manifest.webmanifest" ∈ CORE_ASSETS) as Hin
    by (unfold CORE_ASSETS; do 2 right; left).
  split; [reflexivity|]. split; [exact Hin|].
  exact (install_populates_core_assets online upgrading eq_refl _ Hin).
Defined.

(** A POST is left to the network. *)
Lemma non_GET_passes_through_witness :
  let req := {| method := "POST"; url := "/api/report" |} in
  method req ≠ "GET"
  ∧ fetch_handler req offline serving = (PassThrough, serving).
Proof.
  intros req.
  assert (method req ≠ "GET") as Hm by (intros Heq; discriminate Heq).
  split; [exact Hm|].
  exact (proj1 (non_GET_passes_through offline serving req Hm)).
Defined.

(** With the bucket of version 0 locked, the beta bucket is still removed and
    the locked one stays. *)
Lemma activate_deletions_best_effort_witness :
  let w := (install_handler online upgrading).2 in
  (activate_event locked w).1 = Activated
  ∧ ("kr-close-report-beta" ∉ names (caches (activate_event locked w).2))
  ∧ get_bucket "kr-close-report-v0" (caches (activate_event locked w).2) =
      get_bucket "kr-close-report-v0" (caches w).
Proof.
  intros w.
  destruct (activate_deletions_best_effort locked w)
    as (Hstate & _ & Hgone & Hkept & _).
  split; [exact Hstate|]. split.
  - apply Hgone; [intros Heq; discriminate Heq | reflexivity].
  - apply Hkept. reflexivity.
Defined.

(** With the larger icon missing, the install fails. *)
Lemma install_fails_when_asset_unreachable_witness :
  "/icon-512.png" ∈ CORE_ASSETS
  ∧ fetch_asset missing_icon "/icon-512.png" = None
  ∧ (install_handler missing_icon upgrading).1 = Rejected TypeError
  ∧ (install_event missing_icon upgrading).1 = Redundant.
Proof.
  assert ("/icon-512.png" ∈ CORE_ASSETS) as Hin
    by (unfold CORE_ASSETS; do 4 right; left).
  split; [exact Hin|]. split; [reflexivity|].
  destruct (install_fails_when_asset_unreachable missing_icon upgrading
              "/icon-512.png" Hin eq_refl) as (Hrej & Hred & _).
  split; [exact Hrej | exact Hred].
Defined.

(** The root is refreshed from a redeployed site, then served offline. *)
Lemma root_round_trip_witness :
  let res := {| status := 200; body := "home, second edition"; origin := Fetched |} in
  steady serving
  ∧ network redeployed root_request = Fulfilled res
  ∧ status res ≠ 206%nat
  ∧ put_fails redeployed root_request (clone res) = false
  ∧ network offline root_request = Rejected NetworkError
  ∧ page_receives offline root_request
      (fetch_handler root_request offline
         (drain redeployed (fetch_handler root_request redeployed serving).2)).1
    = Fulfilled (clone res).
Proof.
  intros res.
  assert (steady serving) as Hw by (apply steady_activated; reflexivity).
  assert (status res ≠ 206%nat) as Hs by (intros Heq; discriminate Heq).
  split; [exact Hw|]. split; [reflexivity|]. split; [exact Hs|].
  split; [reflexivity|]. split; [reflexivity|].
  destruct (root_round_trip redeployed offline serving res NetworkError
              Hw eq_refl Hs eq_refl eq_refl) as (_ & _ & _ & Hpage).
  exact Hpage.
Defined.

(** A 404 is a fulfilled fetch: it is returned and stored, and the cache is
    not consulted. *)
Lemma fallback_iff_fetch_rejects_witness :
  let req := request_of "/no-such-page" in
  let res := {| status := 404; body := "Not Found"; origin := Fetched |} in
  method req = "GET"
  ∧ status res ≠ 206%nat
  ∧ put_fails not_found req (clone res) = false
  ∧ fallback_taken serving (fetch_handler req not_found serving).2 = false
  ∧ (fetch_handler req not_found serving).1 = RespondWith (Fulfilled (Some res))
  ∧ bucket_entry CACHE_NAME "/no-such-page"
      (caches (drain not_found (fetch_handler req not_found serving).2))
    = Some (clone res).
Proof.
  intros req res.
  assert (status res ≠ 206%nat) as Hs by (intros Heq; discriminate Heq).
  split; [reflexivity|]. split; [exact Hs|]. do 2 (split; [reflexivity|]).
  destruct (fallback_iff_fetch_rejects not_found serving req eq_refl)
    as (_ & Hstored).
  destruct (Hstored res eq_refl) as (Hres & _ & Hentry).
  split; [exact Hres | exact (Hentry Hs eq_refl)].
Defined.

(** C2, as stated, does not hold: a partial response (status 206) is
    returned to the page like any other, and [cache.put] refuses its clone,
    so the bucket has no entry for the request afterwards. *)
Lemma partial_response_is_not_stored :
  let req := request_of "/media/intro.mp4" in
  let res := {| status := 206; body := "bytes 0-99"; origin := Fetched |} in
  method req = "GET"
  ∧ network ranged req = Fulfilled res
  ∧ (fetch_handler req ranged serving).1 = RespondWith (Fulfilled (Some res))
  ∧ bucket_entry CACHE_NAME (url req)
      (caches (drain ranged (fetch_handler req ranged serving).2)) = None
  ∧ bucket_entry CACHE_NAME (url req)
      (caches (drain ranged (fetch_handler req ranged serving).2))
    ≠ Some (clone res).
Proof.
  intros req res. do 4 (split; [reflexivity|]). intros Heq. discriminate Heq.
Qed.

(** C10, as stated, does not hold: a fetch that fulfils with status 206 is
    taken as a success (the cache is not consulted, the response is
    returned), and yet nothing is stored in the current bucket. *)
Lemma fulfilled_partial_response_is_not_stored :
  let req := request_of "/reports/archive.pdf" in
  let res := {| status := 206; body := "bytes 0-99"; origin := Fetched |} in
  method req = "GET"
  ∧ network ranged req = Fulfilled res
  ∧ fallback_taken fresh (fetch_handler req ranged fresh).2 = false
  ∧ (fetch_handler req ranged fresh).1 = RespondWith (Fulfilled (Some res))
  ∧ ¬ (bucket_entry CACHE_NAME (url req)
         (caches (drain ranged (fetch_handler req ranged fresh).2))
       = Some (clone res)).
Proof.
  intros req res. do 4 (split; [reflexivity|]). intros Heq. discriminate Heq.
Qed.

(** C9, as stated, does not hold in two ways.  When the bucket of an earlier
    version has survived activation (the host activates the worker whichever
    way the promise settles), the root fetched online is stored in the
    current bucket, and yet [caches.match] finds the older bucket's entry
    first.  And in the steady phase, a root that the network answers with
    status 206 is not stored at all, so the later fetch is answered with
    the entry that was there before. *)
Lemma root_round_trip_can_miss :
  (let res := {| status := 200; body := "home, second edition"; origin := Fetched |} in
   let old := {| status := 200; body := "old home"; origin := Fetched |} in
   let w := (activate_event locked (install_handler online upgrading).2).2 in
   let w' := drain redeployed (fetch_handler root_request redeployed w).2 in
   (activate_event locked (install_handler online upgrading).2).1 = Activated
   ∧ network redeployed root_request = Fulfilled res
   ∧ bucket_entry CACHE_NAME "/" (caches w') = Some (clone res)
   ∧ network offline root_request = Rejected NetworkError
   ∧ (fetch_handler root_request offline w').1 = RespondWith (Fulfilled (Some old))
   ∧ old ≠ clone res)
  ∧ (let res := {| status := 206; body := "bytes 0-99"; origin := Fetched |} in
     let installed := {| status := 200; body := "/"; origin := Fetched |} in
     let w' := drain ranged (fetch_handler root_request ranged serving).2 in
     steady serving
     ∧ network ranged root_request = Fulfilled res
     ∧ (fetch_handler root_request offline w').1 =
         RespondWith (Fulfilled (Some installed))
     ∧ installed ≠ clone res).
Proof.
  split.
  - intros res old w w'. do 5 (split; [reflexivity|]).
    intros Heq. discriminate Heq.
  - intros res installed w'.
    split; [apply steady_activated; reflexivity|].
    do 2 (split; [reflexivity|]). intros Heq. discriminate Heq.
Qed.

(** * Further properties of the handlers *)

(** ** Entries that a handler leaves alone *)

Lemma bucket_entry_open name name' u (cs : CacheStorage) :
  bucket_entry name u (open_bucket name' cs) = bucket_entry name u cs.
Proof.
  unfold bucket_entry. destruct (decide (name = name')) as [-> | Hne].
  - rewrite get_bucket_open. destruct (get_bucket name' cs); [done|].
    simpl. apply lookup_empty.
  - by rewrite get_bucket_open_ne.
Qed.

Lemma bucket_entry_put_frame name name' u u' res (cs : CacheStorage) :
  name ≠ name' ∨ u ≠ u' →
  bucket_entry name u (put_entry name' u' res cs) = bucket_entry name u cs.
Proof.
  intros [Hn | Hu].
  - unfold bucket_entry, put_entry. by rewrite get_bucket_update_ne.
  - destruct (decide (name = name')) as [-> | Hn].
    + by apply bucket_entry_put_ne.
    + unfold bucket_entry, put_entry. by rewrite get_bucket_update_ne.
Qed.

Lemma put_entries_cons name u res kvs (cs : CacheStorage) :
  put_entries name ((u, res) :: kvs) cs =
    put_entries name kvs (put_entry name u res cs).
Proof. done. Qed.

Lemma bucket_entry_put_entries_frame name name' u kvs : ∀ cs : CacheStorage,
  name ≠ name' ∨ u ∉ kvs.*1 →
  bucket_entry name u (put_entries name' kvs cs) = bucket_entry name u cs.
Proof.
  induction kvs as [|[u' res] kvs IH]; intros cs Hframe; [done|].
  rewrite put_entries_cons, IH, bucket_entry_put_frame; [done | |].
  - destruct Hframe as [Hn | Hu]; [by left | right].
    intros ->. apply Hu. rewrite fmap_cons. left.
  - destruct Hframe as [Hn | Hu]; [by left | right].
    intros Hin. apply Hu. rewrite fmap_cons. by right.
Qed.

Lemma bucket_entry_put_is_Some name name' u u' res (cs : CacheStorage) :
  is_Some (bucket_entry name u cs) →
  is_Some (bucket_entry name u (put_entry name' u' res cs)).
Proof.
  intros Hsome.
  destruct (decide (name = name' ∧ u = u')) as [[-> ->] | Hne].
  - rewrite bucket_entry_put; [eauto|].
    unfold bucket_entry in Hsome.
    destruct (get_bucket name' cs); [eauto | by destruct Hsome].
  - rewrite bucket_entry_put_frame; [done|].
    destruct (decide (name = name')); [right | by left].
    intros ->. by apply Hne.
Qed.

Lemma bucket_entry_put_entries_is_Some name name' u kvs : ∀ cs : CacheStorage,
  is_Some (bucket_entry name u cs) →
  is_Some (bucket_entry name u (put_entries name' kvs cs)).
Proof.
  induction kvs as [|[u' res] kvs IH]; intros cs Hsome; [done|].
  rewrite put_entries_cons. by apply IH, bucket_entry_put_is_Some.
Qed.

Lemma bucket_entry_activate h w u :
  bucket_entry CACHE_NAME u (caches (activate_handler h w).2) =
    bucket_entry CACHE_NAME u (caches w).
Proof.
  destruct (activate_handler_effect h w) as (-> & _).
  unfold bucket_entry. rewrite (get_bucket_filter (survives h)); [done | by left].
Qed.

Lemma bucket_entry_run_tasks_is_Some ts h u : ∀ w,
  is_Some (bucket_entry CACHE_NAME u (caches w)) →
  is_Some (bucket_entry CACHE_NAME u (caches (run_tasks ts h w))).
Proof.
  induction ts as [|[req copy] ts IH]; intros w Hsome; [done|].
  apply IH. rewrite run_task_caches.
  destruct (put_refused h req copy); [by rewrite bucket_entry_open|].
  apply bucket_entry_put_is_Some. by rewrite bucket_entry_open.
Qed.

Lemma bucket_entry_lookup_storage name u (cs : CacheStorage) :
  is_Some (bucket_entry name u cs) → is_Some (lookup_storage u cs).
Proof.
  unfold bucket_entry. induction cs as [|[n b] cs IH]; simpl.
  - by intros [? ?].
  - destruct (b !! u) eqn:Hb; [eauto|].
    case_decide; simpl; [rewrite Hb; by intros [? ?] | done].
Qed.

Lemma drain_nothing_pending h w :
  pending w = [] → caches (drain h w) = caches w.
Proof. intros Hp. unfold drain. by rewrite Hp. Qed.

(** What a fulfilled install leaves in the bucket for a core asset. *)
Lemma install_fulfilled_entry h w p :
  (install_handler h w).1 = Fulfilled () →
  p ∈ CORE_ASSETS →
  ∃ r, bucket_entry CACHE_NAME p (caches (install_handler h w).2) = Some r
       ∧ network h (request_of p) = Fulfilled r.
Proof.
  rewrite install_handler_unfold.
  destruct (mapM (fetch_asset h) CORE_ASSETS) as [rs|] eqn:Hrs; [|done].
  intros _ Hp. cbn [snd caches]. apply mapM_Some in Hrs.
  destruct (Forall2_zip_elem _ _ _ p Hrs Hp) as (r & Hin & Hr).
  exists r. split.
  - apply bucket_entry_put_entries; [| |done].
    + rewrite get_bucket_open. eauto.
    + rewrite fst_zip; [apply CORE_ASSETS_NoDup|].
      by rewrite (Forall2_length _ _ _ Hrs).
  - unfold fetch_asset in Hr.
    destruct (network h (request_of p)) as [a|]; [|done].
    destruct (is_ok a); congruence.
Qed.

Lemma NoDup_all_equal_singleton {A} (a : A) (l : list A) :
  NoDup l → (∀ x, x ∈ l → x = a) → a ∈ l → l = [a].
Proof.
  intros Hnd Hall Hin. pose proof (NoDup_all_equal a l Hnd Hall) as Hlen.
  destruct l as [|x [|y l]]; simpl in Hlen; [|by rewrite (Hall x) by left|lia].
  by apply elem_of_nil in Hin.
Qed.

Lemma filter_none {A} (P : A → Prop) `{!∀ x, Decision (P x)} (l : list A) :
  (∀ x, x ∈ l → ¬ P x) → filter P l = [].
Proof.
  induction l as [|x l IH]; intros Hnone; [done|].
  rewrite filter_cons_False by (apply Hnone; left).
  apply IH. intros y Hy. apply Hnone. by right.
Qed.

Lemma activate_fulfilled_intro h w :
  (∀ k, k ∈ names (caches w) → k ≠ CACHE_NAME → delete_fails h k = false) →
  is_fulfilled (activate_handler h w).1 = true.
Proof.
  intros Hok. destruct (activate_handler_effect h w) as (_ & _ & _ & ->).
  apply Is_true_true, forallb_True, Forall_forall. intros k Hk.
  apply bool_decide_pack. intros [-> | Hfail]; [done|].
  destruct (decide (k = CACHE_NAME)) as [-> | Hne]; [done|].
  rewrite (Hok k Hk Hne) in Hfail. discriminate Hfail.
Qed.

Lemma bucket_entry_install_is_Some h w u :
  is_Some (bucket_entry CACHE_NAME u (caches w)) →
  is_Some (bucket_entry CACHE_NAME u (caches (install_handler h w).2)).
Proof.
  intros Hsome. rewrite install_handler_unfold.
  destruct (mapM (fetch_asset h) CORE_ASSETS); cbn [snd caches].
  - apply bucket_entry_put_entries_is_Some. by rewrite bucket_entry_open.
  - by rewrite bucket_entry_open.
Qed.

Lemma deliver_all_cons ev evs w :
  deliver_all (ev :: evs) w = deliver_all evs (deliver ev w).
Proof. done. Qed.

(** An entry of the current bucket is still there after any events. *)
Lemma current_entry_persists u evs : ∀ w,
  is_Some (bucket_entry CACHE_NAME u (caches w)) →
  is_Some (bucket_entry CACHE_NAME u (caches (deliver_all evs w))).
Proof.
  induction evs as [|ev evs IH]; intros w Hsome; [done|].
  rewrite deliver_all_cons. apply IH.
  destruct ev as [h | h | h req | h]; cbn [deliver].
  - by apply bucket_entry_install_is_Some.
  - by rewrite bucket_entry_activate.
  - by rewrite fetch_handler_caches.
  - by apply bucket_entry_run_tasks_is_Some.
Qed.

(** ** The fetch handler *)

(** X1. While the network answers, the worker is transparent: whatever the
    method, the page receives the response of the network, and the handler
    itself leaves the cache storage as it was. *)
Theorem online_is_transparent (h : Host) (w : World) (req : Request) (res : Response) :
  network h req = Fulfilled res →
  page_receives h req (fetch_handler req h w).1 = Fulfilled res
  ∧ caches (fetch_handler req h w).2 = caches w.
Proof.
  intros Hnet. split; [|apply fetch_handler_caches].
  destruct (decide (method req = "GET")) as [Hm | Hm].
  - by rewrite (fetch_handler_fulfilled _ _ _ res).
  - by rewrite fetch_handler_not_GET.
Qed.

(** X2. When the fetch of a GET request rejects, the page is left with an
    error exactly when neither the request nor the root has a cached
    entry. *)
Theorem offline_error_iff_total_miss (h : Host) (w : World) (req : Request) (e : Error) :
  method req = "GET" →
  network h req = Rejected e →
  (page_receives h req (fetch_handler req h w).1 = Rejected NetworkError
   ↔ lookup_storage (url req) (caches w) = None
     ∧ lookup_storage "/" (caches w) = None).
Proof.
  intros Hm Hnet. rewrite (fetch_handler_rejected _ _ _ e) by done.
  cbn [fst first_defined].
  destruct (lookup_storage (url req) (caches w)) as [c|];
    [|destruct (lookup_storage "/" (caches w)) as [c|]]; cbn [page_receives].
  - split; [done | by intros [? _]].
  - split; [done | by intros [_ ?]].
  - done.
Qed.

(** X3. In the steady phase the round trip holds for every URL: a GET
    request fetched while the network answers with a response [cache.put]
    accepts (not partial, not refused otherwise) is, once its store has run,
    answered with the stored clone when the network fails. *)
Theorem cached_response_served_offline (h_on h_off : Host) (w : World)
    (req : Request) (res : Response) (e : Error) :
  steady w →
  method req = "GET" →
  network h_on req = Fulfilled res →
  status res ≠ 206%nat →
  put_fails h_on req (clone res) = false →
  network h_off req = Rejected e →
  (fetch_handler req h_off (drain h_on (fetch_handler req h_on w).2)).1 =
    RespondWith (Fulfilled (Some (clone res))).
Proof.
  intros Hw Hm Hon Hs Hf Hoff.
  set (w' := drain h_on (fetch_handler req h_on w).2).
  assert (lookup_storage (url req) (caches w') = Some (clone res)) as Hlook.
  { apply lookup_storage_current; subst w'.
    - apply only_current_holds_drain. rewrite fetch_handler_caches.
      by apply only_current_holds_intro, steady_only_current.
    - rewrite (fetch_handler_fulfilled _ _ _ res) by done.
      cbn [snd]. rewrite drain_spawned.
      by apply bucket_entry_run_task, put_accepted. }
  rewrite (fetch_handler_rejected _ _ _ e) by done.
  cbn [fst first_defined]. by rewrite Hlook.
Qed.

(** X4. A fetch and its detached store change at most one entry: with no
    store pending beforehand, every entry other than the one of the
    request's URL in the current bucket is as it was. *)
Theorem fetch_stores_only_its_url (h : Host) (w : World) (req : Request)
    (name u : string) :
  pending w = [] →
  name ≠ CACHE_NAME ∨ u ≠ url req →
  bucket_entry name u (caches (drain h (fetch_handler req h w).2)) =
    bucket_entry name u (caches w).
Proof.
  intros Hp Hframe. destruct (decide (method req = "GET")) as [Hm | Hm].
  - destruct (network h req) as [res | e] eqn:Hnet.
    + rewrite (fetch_handler_fulfilled _ _ _ res) by done. cbn [snd].
      rewrite drain_spawned, run_task_caches.
      destruct (put_refused h req (clone res)).
      * rewrite bucket_entry_open. by rewrite drain_nothing_pending.
      * rewrite bucket_entry_put_frame by done.
        rewrite bucket_entry_open. by rewrite drain_nothing_pending.
    + rewrite (fetch_handler_rejected _ _ _ e) by done. cbn [snd].
      by rewrite drain_nothing_pending.
  - rewrite fetch_handler_not_GET by done. by rewrite drain_nothing_pending.
Qed.

(** X5. A URL that has an entry in the current bucket stays served: after
    any sequence of events, a GET request for it whose fetch rejects is
    answered with a response. *)
Theorem cached_url_stays_served_offline (w : World) (evs : list Event)
    (h : Host) (req : Request) (e : Error) :
  is_Some (bucket_entry CACHE_NAME (url req) (caches w)) →
  method req = "GET" →
  network h req = Rejected e →
  ∃ r, page_receives h req (fetch_handler req h (deliver_all evs w)).1 =
         Fulfilled r.
Proof.
  intros Hsome Hm Hnet.
  apply (current_entry_persists _ evs), bucket_entry_lookup_storage in Hsome.
  destruct Hsome as [r Hr]. exists r.
  rewrite (fetch_handler_rejected _ _ _ e) by done.
  cbn [fst first_defined]. by rewrite Hr.
Qed.

(** X6. Once an install has fulfilled, no GET request is left without an
    answer when the network fails, whatever events came in between: the
    page receives the entry [caches.match] finds for the request or, when
    there is none, the entry it finds for the root.  Either may come from
    any bucket; the root has one because the install stored it in the
    current bucket and no event removes it. *)
Theorem offline_answered_once_installed (h0 : Host) (w0 : World)
    (evs : list Event) (h : Host) (req : Request) (e : Error) :
  (install_handler h0 w0).1 = Fulfilled () →
  method req = "GET" →
  network h req = Rejected e →
  let w := deliver_all evs (install_handler h0 w0).2 in
  ∃ r, page_receives h req (fetch_handler req h w).1 = Fulfilled r
       ∧ first_defined [lookup_storage (url req) (caches w);
                        lookup_storage "/" (caches w)] = Some r
       ∧ is_Some (bucket_entry CACHE_NAME "/" (caches w)).
Proof.
  intros Hinst Hm Hnet w.
  assert ("/" ∈ CORE_ASSETS) as Hroot by (unfold CORE_ASSETS; left).
  destruct (install_fulfilled_entry h0 w0 "/" Hinst Hroot) as (r0 & Hr0 & _).
  assert (is_Some (bucket_entry CACHE_NAME "/" (caches w))) as Hentry.
  { subst w. apply current_entry_persists. rewrite Hr0. eauto. }
  destruct (bucket_entry_lookup_storage _ _ _ Hentry) as [r Hr].
  rewrite (fetch_handler_rejected _ _ _ e) by done.
  cbn [fst first_defined]. rewrite Hr.
  destruct (lookup_storage (url req) (caches w)) as [c|]; eauto.
Qed.

(** ** The install handler *)

(** X7. Whether it fulfils or rejects, the install handler touches only the
    entries of the core assets in the current bucket: entries of other
    buckets, and entries of other URLs, are as they were. *)
Theorem install_leaves_other_entries (h : Host) (w : World) (name u : string) :
  name ≠ CACHE_NAME ∨ u ∉ CORE_ASSETS →
  bucket_entry name u (caches (install_handler h w).2) =
    bucket_entry name u (caches w).
Proof.
  intros Hframe. rewrite install_handler_unfold.
  destruct (mapM (fetch_asset h) CORE_ASSETS) as [rs|] eqn:Hrs; cbn [snd caches].
  - rewrite bucket_entry_put_entries_frame; [apply bucket_entry_open|].
    destruct Hframe as [Hn | Hu]; [by left | right].
    apply mapM_Some, Forall2_length in Hrs.
    rewrite fst_zip; [done | by rewrite Hrs].
  - apply bucket_entry_open.
Qed.

(** ** The activate handler *)

(** X8. The promise of the activate handler fulfils exactly when no stale
    bucket has its deletion fail. *)
Theorem activate_fulfils_iff_deletions_succeed (h : Host) (w : World) :
  is_fulfilled (activate_handler h w).1 = true
  ↔ ∀ k, k ∈ names (caches w) → k ≠ CACHE_NAME → delete_fails h k = false.
Proof.
  split; [|apply activate_fulfilled_intro].
  destruct (activate_handler_effect h w) as (_ & _ & _ & ->).
  intros Hok k Hk Hne.
  apply Is_true_true, forallb_True in Hok.
  rewrite Forall_forall in Hok. specialize (Hok k Hk).
  apply bool_decide_unpack in Hok.
  destruct (delete_fails h k) eqn:Hfail; [|done].
  destruct Hne. apply Hok. by right.
Qed.

(** X9. Activating again on the same host changes nothing: the buckets the
    first activation left are the buckets the second one leaves. *)
Theorem activate_twice (h : Host) (w : World) :
  caches (activate_handler h (activate_handler h w).2).2 =
    caches (activate_handler h w).2.
Proof.
  destruct (activate_handler_effect h (activate_handler h w).2) as (-> & _).
  apply filter_all. intros nb Hnb.
  destruct (activate_handler_effect h w) as (Hc & _).
  rewrite Hc in Hnb. by apply list_elem_of_filter in Hnb as [Hs _].
Qed.

(** X10. With nothing stale to remove (in particular with no bucket at
    all), the activate handler deletes nothing: its promise fulfils, the
    cache storage is as it was, and its only calls are [caches.keys()] and
    [clients.claim()]. *)
Theorem activate_nothing_stale (h : Host) (w : World) :
  only_current (caches w) →
  is_fulfilled (activate_handler h w).1 = true
  ∧ caches (activate_handler h w).2 = caches w
  ∧ calls_since w (activate_handler h w).2 = [CachesKeys; ClientsClaim].
Proof.
  intros Hcur. split; [|split].
  - apply activate_fulfilled_intro. intros k Hk Hne. destruct Hne. by apply Hcur.
  - destruct (activate_handler_effect h w) as (-> & _).
    apply filter_all. intros [n b] Hnb. left. apply Hcur.
    apply list_elem_of_fmap. by exists (n, b).
  - destruct (activate_handler_effect h w) as (_ & _ & Hl & _).
    apply calls_since_app. rewrite Hl, filter_none; [done|].
    intros k Hk Hne. apply Hne. by apply Hcur.
Qed.

(** ** Sequences of events *)

(** X11. Bucket names stay distinct: no sequence of install, activate and
    fetch events and settling stores creates a second bucket of a name. *)
Theorem bucket_names_stay_distinct (evs : list Event) (w : World) :
  NoDup (names (caches w)) →
  NoDup (names (caches (deliver_all evs w))).
Proof.
  revert w. induction evs as [|ev evs IH]; intros w Hnd; [done|].
  rewrite deliver_all_cons. apply IH.
  destruct ev as [h | h | h req | h]; cbn [deliver].
  - by apply NoDup_names_install.
  - by apply NoDup_names_activate.
  - by rewrite fetch_handler_caches.
  - by apply NoDup_names_run_tasks.
Qed.

(** X12. A deployment: from any cache storage, when the install fulfils and
    the activation that follows fulfils, the current bucket is the only
    bucket, and a request for a core asset whose fetch rejects is answered
    with the response the install fetched for it. *)
Theorem deployment_serves_core_assets_offline (h0 h1 : Host) (w0 : World) :
  NoDup (names (caches w0)) →
  (install_handler h0 w0).1 = Fulfilled () →
  is_fulfilled (activate_handler h1 (install_handler h0 w0).2).1 = true →
  let w := (activate_handler h1 (install_handler h0 w0).2).2 in
  names (caches w) = [CACHE_NAME]
  ∧ ∀ p h e, p ∈ CORE_ASSETS → network h (request_of p) = Rejected e →
      ∃ r, network h0 (request_of p) = Fulfilled r
           ∧ (fetch_handler (request_of p) h w).1 =
               RespondWith (Fulfilled (Some r)).
Proof.
  intros Hnd Hinst Hact w.
  assert (only_current (caches w)) as Hcur
    by by apply activate_fulfilled_only_current.
  assert (∀ p, p ∈ CORE_ASSETS →
            ∃ r, bucket_entry CACHE_NAME p (caches w) = Some r
                 ∧ network h0 (request_of p) = Fulfilled r) as Hentry.
  { intros p Hp. subst w. rewrite bucket_entry_activate.
    by apply install_fulfilled_entry. }
  split.
  - apply NoDup_all_equal_singleton; [|done|].
    + subst w. by apply NoDup_names_activate, NoDup_names_install.
    + destruct (Hentry "/") as (r & Hr & _); [unfold CORE_ASSETS; left|].
      destruct (decide (CACHE_NAME ∈ names (caches w))) as [|Hout]; [done|].
      apply get_bucket_None in Hout. unfold bucket_entry in Hr.
      by rewrite Hout in Hr.
  - intros p h e Hp Hnet. destruct (Hentry p Hp) as (r & Hr & Hr0).
    exists r. split; [done|].
    rewrite (fetch_handler_rejected _ _ _ e) by done.
    cbn [fst first_defined url request_of].
    rewrite (lookup_storage_current p (caches w) r); [done | | done].
    by apply only_current_holds_intro.
Qed.

(** ** The further properties on the sample worlds *)

(** Online, a POST is answered by the network. *)
Lemma online_is_transparent_witness :
  let req := {| method := "POST"; url := "/api/report" |} in
  let res := {| status := 200; body := "/api/report"; origin := Fetched |} in
  network online req = Fulfilled res
  ∧ page_receives online req (fetch_handler req online serving).1 = Fulfilled res.
Proof.
  intros req res. split; [reflexivity|].
  exact (proj1 (online_is_transparent online serving req res eq_refl)).
Defined.

(** Offline with nothing cached, the page is left with an error. *)
Lemma offline_error_iff_total_miss_witness :
  let req := request_of "/reports/today" in
  method req = "GET"
  ∧ network offline req = Rejected NetworkError
  ∧ page_receives offline req (fetch_handler req offline fresh).1 =
      Rejected NetworkError.
Proof.
  intros req. split; [reflexivity|]. split; [reflexivity|].
  apply (offline_error_iff_total_miss offline fresh req NetworkError
           eq_refl eq_refl).
  split; reflexivity.
Defined.

(** A report page visited online is served offline afterwards. *)
Lemma cached_response_served_offline_witness :
  let req := request_of "/reports/today" in
  let res := {| status := 200; body := "/reports/today"; origin := Fetched |} in
  steady serving
  ∧ method req = "GET"
  ∧ network online req = Fulfilled res
  ∧ status res ≠ 206%nat
  ∧ put_fails online req (clone res) = false
  ∧ network offline req = Rejected NetworkError
  ∧ (fetch_handler req offline (drain online (fetch_handler req online serving).2)).1
    = RespondWith (Fulfilled (Some (clone res))).
Proof.
  intros req res.
  assert (steady serving) as Hw by (apply steady_activated; reflexivity).
  assert (status res ≠ 206%nat) as Hs by (intros Heq; discriminate Heq).
  split; [exact Hw|]. do 2 (split; [reflexivity|]). split; [exact Hs|].
  do 2 (split; [reflexivity|]).
  exact (cached_response_served_offline online offline serving req res
           NetworkError Hw eq_refl eq_refl Hs eq_refl eq_refl).
Defined.

(** Visiting a report page leaves the cached root as it was. *)
Lemma fetch_stores_only_its_url_witness :
  let req := request_of "/reports/today" in
  pending serving = []
  ∧ "/" ≠ url req
  ∧ bucket_entry CACHE_NAME "/"
      (caches (drain redeployed (fetch_handler req redeployed serving).2)) =
    bucket_entry CACHE_NAME "/" (caches serving).
Proof.
  intros req.
  assert ("/" ≠ url req) as Hu by (intros Heq; discriminate Heq).
  split; [reflexivity|]. split; [exact Hu|].
  exact (fetch_stores_only_its_url redeployed serving req CACHE_NAME "/"
           eq_refl (or_intror Hu)).
Defined.

(** The cached index page is still served offline after a day of events. *)
Lemma cached_url_stays_served_offline_witness :
  let req := request_of "/index.html" in
  is_Some (bucket_entry CACHE_NAME (url req) (caches serving))
  ∧ method req = "GET"
  ∧ network offline req = Rejected NetworkError
  ∧ ∃ r, page_receives offline req
           (fetch_handler req offline (deliver_all a_day serving)).1 = Fulfilled r.
Proof.
  intros req.
  assert (is_Some (bucket_entry CACHE_NAME (url req) (caches serving))) as Hsome
    by (eexists; reflexivity).
  split; [exact Hsome|]. do 2 (split; [reflexivity|]).
  exact (cached_url_stays_served_offline serving a_day offline req NetworkError
           Hsome eq_refl eq_refl).
Defined.

(** After an install, a page never visited is answered offline. *)
Lemma offline_answered_once_installed_witness :
  let req := request_of "/reports/today" in
  let w := deliver_all a_day (install_handler online upgrading).2 in
  (install_handler online upgrading).1 = Fulfilled ()
  ∧ method req = "GET"
  ∧ network offline req = Rejected NetworkError
  ∧ ∃ r, page_receives offline req (fetch_handler req offline w).1 = Fulfilled r
         ∧ first_defined [lookup_storage (url req) (caches w);
                          lookup_storage "/" (caches w)] = Some r
         ∧ is_Some (bucket_entry CACHE_NAME "/" (caches w)).
Proof.
  intros req w. do 3 (split; [reflexivity|]).
  exact (offline_answered_once_installed online upgrading a_day offline req
           NetworkError eq_refl eq_refl eq_refl).
Defined.

(** A failed install leaves the root cached by version 0 where it was. *)
Lemma install_leaves_other_entries_witness :
  "kr-close-report-v0" ≠ CACHE_NAME
  ∧ bucket_entry "kr-close-report-v0" "/"
      (caches (install_handler missing_icon upgrading).2) =
    bucket_entry "kr-close-report-v0" "/" (caches upgrading).
Proof.
  assert ("kr-close-report-v0" ≠ CACHE_NAME) as Hn
    by (intros Heq; discriminate Heq).
  split; [exact Hn|].
  exact (install_leaves_other_entries missing_icon upgrading
           "kr-close-report-v0" "/" (or_introl Hn)).
Defined.

(** The worker that serves is activated once more: nothing is deleted. *)
Lemma activate_nothing_stale_witness :
  only_current (caches serving)
  ∧ caches (activate_handler locked serving).2 = caches serving
  ∧ calls_since serving (activate_handler locked serving).2 =
      [CachesKeys; ClientsClaim].
Proof.
  assert (only_current (caches serving)) as Hcur
    by exact (activate_fulfilled_only_current online
                (install_handler online upgrading).2 eq_refl).
  split; [exact Hcur|].
  exact (proj2 (activate_nothing_stale locked serving Hcur)).
Defined.

(** Bucket names are distinct after an install and a day of events. *)
Lemma bucket_names_stay_distinct_witness :
  NoDup (names (caches upgrading))
  ∧ NoDup (names (caches (deliver_all (InstallEvent online :: a_day) upgrading))).
Proof.
  assert (NoDup (names (caches upgrading))) as Hnd by compute_done.
  split; [exact Hnd|].
  exact (bucket_names_stay_distinct (InstallEvent online :: a_day) upgrading Hnd).
Defined.

(** The upgrade of the sample browser: one bucket remains, and the manifest
    is served offline as installed. *)
Lemma deployment_serves_core_assets_offline_witness :
  NoDup (names (caches upgrading))
  ∧ (install_handler online upgrading).1 = Fulfilled ()
  ∧ is_fulfilled (activate_handler online (install_handler online upgrading).2).1
      = true
  ∧ names (caches serving) = [CACHE_NAME]
  ∧ ∃ r, network online (request_of "/manifest.webmanifest") = Fulfilled r
         ∧ (fetch_handler (request_of "/manifest.webmanifest") offline serving).1
           = RespondWith (Fulfilled (Some r)).
Proof.
  assert (NoDup (names (caches upgrading))) as Hnd by compute_done.
  assert ("/manifest.webmanifest" ∈ CORE_ASSETS) as Hin
    by (unfold CORE_ASSETS; do 2 right; left).
  split; [exact Hnd|]. do 2 (split; [reflexivity|]).
  destruct (deployment_serves_core_assets_offline online online upgrading
              Hnd eq_refl eq_refl) as (Hnames & Hserved).
  split; [exact Hnames|].
  exact (Hserved "/manifest.webmanifest" offline NetworkError Hin eq_refl).
Defined.
